(** * RFC 9457 problem details (package [problem]): model and properties

    A shallow embedding of [problem.go] and [handler.go].

    Conventions of the embedding
    - Go [string] is a byte string: Rocq [string].
    - Go [int] is the 64-bit signed integer of the usual targets, kept as [Z].
    - Go [float64] values that JSON decoding can produce are finite; they are
      kept by their exact rational value ([Q]), with [==] as [Qeq_bool].
    - A Go map is a reference: [Details.Extensions] and [Type.Extensions] hold
      an optional location in a store of maps ([Heap]); [None] is the nil map.
      Extension values ([any]) are kept by value.
    - Pointers to structs ([*Details], [*Type]) are kept by the struct they
      point to; a nil [*Details] only occurs as an unset local variable and is
      an [option].
    - The JSON library (go-json-experiment) is outside the package. It is
      modelled with its default options at the level of its interface: the
      tokens and values handed to a [jsontext.Encoder], and the next JSON value
      a [jsontext.Decoder] holds. *)

From Stdlib Require Import ZArith QArith String Ascii List Lia.
From stdpp Require Import gmap strings list fin_maps.

Set Warnings "-register-all".

Local Open Scope string_scope.
Local Open Scope Z_scope.
Local Open Scope list_scope.

(** ** Numbers *)

Module Float64.

(** A finite binary64 value, by its exact value. *)
Definition float64 : Type := Q.

(** Nearest binary64 to an integer, ties to even (53 significant bits).
    This is both the conversion [float64(i)] and what parsing an integer
    literal into a [float64] yields. *)
Definition round_binary64 (z : Z) : Z :=
  let a := Z.abs z in
  if a <? 2 ^ 53 then z
  else
    let k := Z.log2 a - 52 in
    let q := a / 2 ^ k in
    let r := a mod 2 ^ k in
    let half := 2 ^ (k - 1) in
    let q' := if (half <? r) || ((r =? half) && Z.odd q) then q + 1 else q in
    Z.sgn z * (q' * 2 ^ k).

Definition of_int (z : Z) : float64 := inject_Z (round_binary64 z).

Definition min_int : Z := - 2 ^ 63.
Definition max_int : Z := 2 ^ 63 - 1.

(** [int(v)]: truncation toward zero. Outside the range of [int] the Go
    specification leaves the result to the implementation; amd64 yields
    the minimal integer, which is what is modelled. *)
Definition to_int (v : float64) : Z :=
  let t := Z.quot (Qnum v) (Zpos (Qden v)) in
  if (min_int <=? t) && (t <=? max_int) then t else min_int.

(** [a == b] *)
Definition eqb (a b : float64) : bool := Qeq_bool a b.


(** The integer is a value of [int]. *)
Definition is_int (z : Z) : Prop := min_int <= z <= max_int.

(** The integer is a binary64 value: converting it does not round. *)
Definition exact (z : Z) : Prop := round_binary64 z = z.

End Float64.

Abbreviation float64 := Float64.float64.

(** ** Strings *)

Module UTF8.

Definition byte_in (lo hi : N) (a : ascii) : bool :=
  let n := N_of_ascii a in ((lo <=? n) && (n <=? hi))%N.

Definition cont : ascii -> bool := byte_in 128 191.

(** Well-formed UTF-8 (RFC 3629), as [unicode/utf8.ValidString]. *)
Fixpoint valid (s : string) : bool :=
  match s with
  | EmptyString => true
  | String a r =>
      if byte_in 0 127 a then valid r
      else
        match r with
        | EmptyString => false
        | String b r1 =>
            if byte_in 194 223 a then cont b && valid r1
            else
              match r1 with
              | EmptyString => false
              | String c r2 =>
                  if byte_in 224 239 a then
                    (if byte_in 224 224 a then byte_in 160 191 b
                     else if byte_in 237 237 a then byte_in 128 159 b
                     else cont b)
                    && cont c && valid r2
                  else
                    match r2 with
                    | EmptyString => false
                    | String d r3 =>
                        if byte_in 240 244 a then
                          (if byte_in 240 240 a then byte_in 144 191 b
                           else if byte_in 244 244 a then byte_in 128 143 b
                           else cont b)
                          && cont c && cont d && valid r3
                        else false
                    end
              end
        end
  end.

End UTF8.

(** ** JSON as seen through the library's interface *)

Module jsontext.

(** [jsontext.Token], with the constructors of the library. *)
Inductive Token : Type :=
| ObjectStart
| ObjectEnd
| ArrayStart
| ArrayEnd
| Null
| Bool (b : bool)
| String (s : string)
| Int (i : Z)
| Float (f : float64).

(** [jsontext.Value]: one complete JSON value. An integer literal is kept
    apart from the other number literals, which are kept by the [float64]
    they parse to. *)
Inductive Value : Type :=
| VNull
| VBool (b : bool)
| VInt (i : Z)
| VFloat (f : float64)
| VString (s : string)
| VArray (elems : list Value)
| VObject (members : list (string * Value)).

(** Syntactic validity as the library checks it by default, on writing
    and on reading: strings are valid UTF-8, names of an object unique. *)
Fixpoint value_ok (v : Value) : bool :=
  match v with
  | VNull | VBool _ | VInt _ | VFloat _ => true
  | VString s => UTF8.valid s
  | VArray elems => forallb value_ok elems
  | VObject members =>
      bool_decide (NoDup (map fst members))
      && forallb (fun kv => UTF8.valid (fst kv) && value_ok (snd kv)) members
  end.

(** What an encoder has been handed so far, in order: single tokens
    ([WriteToken]) and complete values ([WriteValue]). *)
Inductive Written : Type :=
| WToken (t : Token)
| WValue (v : Value).

Definition Encoder : Type := list Written.

(** What a decoder holds: the next JSON value of its input, or nothing
    when the input bytes are not a JSON value. *)
Definition Decoder : Type := option Value.

(** The value a written scalar token or complete value stands for. *)
Definition value_of (w : Written) : option Value :=
  match w with
  | WValue v => Some v
  | WToken Null => Some VNull
  | WToken (Bool b) => Some (VBool b)
  | WToken (String s) => Some (VString s)
  | WToken (Int i) => Some (VInt i)
  | WToken (Float f) => Some (VFloat f)
  | WToken _ => None
  end.

(** Members spelled by what follows an [ObjectStart]: name, value, ...,
    [ObjectEnd]. *)
Fixpoint members_of (ws : list Written) : option (list (string * Value)) :=
  match ws with
  | [WToken ObjectEnd] => Some []
  | WToken (String k) :: w :: rest =>
      match value_of w, members_of rest with
      | Some v, Some ms => Some ((k, v) :: ms)
      | _, _ => None
      end
  | _ => None
  end.

(** The JSON value that the output of an encoder spells, for outputs that
    are a scalar, a complete value, or an object written member by
    member. A decoder over the encoder's bytes holds this value. *)
Definition written_value (enc : Encoder) : Decoder :=
  match enc with
  | WToken ObjectStart :: rest => VObject <$> members_of rest
  | [w] => value_of w
  | _ => None
  end.

End jsontext.

Import jsontext (Token, Value, Written, Encoder, Decoder,
                 VNull, VBool, VInt, VFloat, VString, VArray, VObject,
                 WToken, WValue).

(** ** The data model of the package *)

(** Locations of Go maps. *)
Definition loc : Type := positive.

(** [type Details struct], over the type of [error] values. *)
Record DetailsOf (E : Type) : Type := mkDetails {
  Type_ : string;
  Status : Z;
  Title : string;
  Detail : string;
  Instance : string;
  Extensions : option loc;
  Underlying : option E;
}.

Arguments mkDetails {E}.
Arguments Type_ {E}.
Arguments Status {E}.
Arguments Title {E}.
Arguments Detail {E}.
Arguments Instance {E}.
Arguments Extensions {E}.
Arguments Underlying {E}.

(** Go [error] values, by what [errors.As] can observe of them: a
    [*Details]; or a value of another type, which may have an
    [As(any) bool] method that stores a [*Details] in a [**Details] target
    ([As_] is what it stores, [None] when there is no such method or it
    declines), and has no [Unwrap] method, an [Unwrap() error] or an
    [Unwrap() []error]. *)
Inductive error : Type :=
| DetailsError (d : DetailsOf error)
| PlainError (text : string) (As_ : option (DetailsOf error))
| WrapError (text : string) (As_ : option (DetailsOf error))
    (Unwrap : option error)
| JoinError (text : string) (As_ : option (DetailsOf error))
    (Unwrap : list (option error)).

Abbreviation Details := (DetailsOf error).

(** [errors.New] *)
Definition errors_New (text : string) : error := PlainError text None.

(** [type Type struct] *)
Record ProblemType : Type := mkType {
  URI : string;
  TypeTitle : string;
  TypeStatus : Z;
  TypeExtensions : option loc;
}.

(** The non-nil value a [recover()] yields: an [error], or a value of a
    type that is not an [error], kept by its printed form. ([panic(nil)]
    is recovered as a [*runtime.PanicNilError], an [error].) *)
Inductive Recovered : Type :=
| RecoveredError (err : error)
| RecoveredOther (v : string).

(** How a call ends: a result, a returned [error], or a panic. *)
Inductive Outcome (A : Type) : Type :=
| Ok (a : A)
| Err (err : error)
| Panic (v : Recovered).

Arguments Ok {A}.
Arguments Err {A}.
Arguments Panic {A}.

#[global] Instance Outcome_bind : MBind Outcome :=
  fun A B k o =>
    match o with
    | Ok a => k a
    | Err e => Err e
    | Panic v => Panic v
    end.

Definition succeeded {A : Type} (o : Outcome A) : bool :=
  match o with Ok _ => true | _ => false end.

(** What [MarshalJSON] of a value with its own encoding does. *)
Inductive MarshalJSON : Type :=
| Returns (v : Value)
| Fails (text : string)
| Panics (v : string).

(** The dynamic values an extension can hold ([any]): the shapes that
    decoding JSON produces, Go integers, and values that bring their own
    [MarshalJSON]. *)
Inductive any : Type :=
| nil_
| bool_ (b : bool)
| int_ (i : Z)
| float64_ (f : float64)
| string_ (s : string)
| slice_ (elems : list any)
| map_ (m : gmap string any)
| marshaler_ (m : MarshalJSON).

(** The store of maps. *)
Abbreviation Heap := (gmap loc (gmap string any)).

(** The map at a location; a nil map reads as the empty map. *)
Definition deref (h : Heap) (m : option loc) : gmap string any :=
  match m with
  | None => ∅
  | Some l => default ∅ (h !! l)
  end.

(** [make(map[string]any)] and [maps.Clone]: a new map with the given
    contents, at a location not in use. *)
Definition alloc (m : gmap string any) (h : Heap) : loc * Heap :=
  let l := fresh (dom h) in (l, <[l := m]> h).

(** ** The JSON library *)

Module json.

Definition SyntacticError (text : string) : error := errors_New text.
Definition SemanticError (text : string) : error := errors_New text.

Definition ErrInvalidUTF8 : error := SyntacticError "invalid UTF-8".

(** [enc.WriteToken(t)] *)
Definition WriteToken (enc : Encoder) (t : Token) : Outcome Encoder :=
  match t with
  | jsontext.String s =>
      if UTF8.valid s then Ok (enc ++ [WToken t]) else Err ErrInvalidUTF8
  | _ => Ok (enc ++ [WToken t])
  end.

(** All results in order, or the first failure. *)
Fixpoint sequence {A : Type} (os : list (Outcome A)) : Outcome (list A) :=
  match os with
  | [] => Ok []
  | o :: rest => (a ← o; r ← sequence rest; Ok (a :: r))
  end.

(** The JSON value of a Go value under the default encoding. *)
Fixpoint marshal (v : any) : Outcome Value :=
  match v with
  | nil_ => Ok VNull
  | bool_ b => Ok (VBool b)
  | int_ i => Ok (VInt i)
  | float64_ f => Ok (VFloat f)
  | string_ s => if UTF8.valid s then Ok (VString s) else Err ErrInvalidUTF8
  | slice_ elems => (vs ← sequence (map marshal elems); Ok (VArray vs))
  | map_ m =>
      (ms ← sequence
              (map (fun kv : string * Outcome Value =>
                      if UTF8.valid kv.1 then (v ← kv.2; Ok (kv.1, v))
                      else Err ErrInvalidUTF8)
                   (map_to_list (marshal <$> m)));
       Ok (VObject ms))
  | marshaler_ (Returns v) =>
      if jsontext.value_ok v then Ok v
      else Err (SemanticError "MarshalJSON returned invalid JSON")
  | marshaler_ (Fails text) => Err (SemanticError text)
  | marshaler_ (Panics v) => Panic (RecoveredOther v)
  end.

(** [json.MarshalEncode(enc, v, opts)] *)
Definition MarshalEncode (enc : Encoder) (v : any) : Outcome Encoder :=
  jv ← marshal v; Ok (enc ++ [WValue jv]).

(** The map that the members of a JSON object fill. *)
Definition object_map (f : Value -> any) (members : list (string * Value)) :
  gmap string any :=
  list_to_map (map (fun kv => (kv.1, f kv.2)) members).

(** The Go value that decoding a JSON value into an [any] yields:
    every number becomes a [float64]. *)
Fixpoint unmarshal (v : Value) : any :=
  match v with
  | VNull => nil_
  | VBool b => bool_ b
  | VInt i => float64_ (Float64.of_int i)
  | VFloat f => float64_ f
  | VString s => string_ s
  | VArray elems => slice_ (map unmarshal elems)
  | VObject members => map_ (object_map unmarshal members)
  end.

(** [json.UnmarshalDecode(dec, &m, opts)] for [var m map[string]any]:
    input that is not valid JSON is an error; [null] leaves [m] nil; an
    object fills a new map; any other value is an error. *)
Definition UnmarshalDecode (dec : Decoder) : Outcome (option (gmap string any)) :=
  match dec with
  | None => Err (SyntacticError "invalid JSON")
  | Some v =>
      if jsontext.value_ok v then
        match v with
        | VNull => Ok None
        | VObject members => Ok (Some (object_map unmarshal members))
        | _ => Err (SemanticError "cannot unmarshal into Go map")
        end
      else Err (SyntacticError "invalid JSON")
  end.

End json.

(** ** net/http, as far as the package uses it *)

(** Bytes: text, or the serialisation of what a JSON encoder wrote. *)
Inductive Bytes : Type :=
| Text (s : string)
| JSONText (written : Encoder).

(** The calls made on a [http.ResponseWriter], besides [Header()]. *)
Inductive Call : Type :=
| WriteHeader (statusCode : Z)
| Write (b : Bytes).

(** A [http.ResponseWriter]: its header map, and the calls made so far. *)
Record ResponseWriter : Type := mkResponseWriter {
  Header : gmap string (list string);
  calls : list Call;
}.

Record Request : Type := mkRequest {
  Method : string;
  Target : string;
}.

(** [http.Header.Del] and [http.Header.Set]; the keys used by the package
    are in canonical form already. *)
Definition Header_Del (key : string) (hd : gmap string (list string)) :
  gmap string (list string) := delete key hd.

Definition Header_Set (key value : string) (hd : gmap string (list string)) :
  gmap string (list string) := <[key := [value]]> hd.

Definition StatusInternalServerError : Z := 500.

(** A [http.Handler]: from the response writer and the store to what they
    have become when the call ends, and the panic it ended with, if any. *)
Definition http_Handler : Type :=
  ResponseWriter -> Request -> Heap -> ResponseWriter * Heap * option Recovered.

(** ** problem.go *)

Definition AboutBlankTypeURI : string := "about:blank".

Definition ContentType : string := "application/problem+json".

(** [cmp.Or] on two strings: the first that is not empty. *)
Definition cmp_Or (a b : string) : string :=
  if String.eqb a "" then b else a.

(** [type Option func(d *Details)] *)
Definition Option : Type := Details -> Heap -> Details * Heap.

(** Assignments to the fields of a [Details]. *)
Definition set_Type (d : Details) (v : string) : Details :=
  mkDetails v (Status d) (Title d) (Detail d) (Instance d) (Extensions d)
    (Underlying d).

Definition set_Status (d : Details) (v : Z) : Details :=
  mkDetails (Type_ d) v (Title d) (Detail d) (Instance d) (Extensions d)
    (Underlying d).

Definition set_Title (d : Details) (v : string) : Details :=
  mkDetails (Type_ d) (Status d) v (Detail d) (Instance d) (Extensions d)
    (Underlying d).

Definition set_Detail (d : Details) (v : string) : Details :=
  mkDetails (Type_ d) (Status d) (Title d) v (Instance d) (Extensions d)
    (Underlying d).

Definition set_Instance (d : Details) (v : string) : Details :=
  mkDetails (Type_ d) (Status d) (Title d) (Detail d) v (Extensions d)
    (Underlying d).

Definition set_Extensions (d : Details) (v : option loc) : Details :=
  mkDetails (Type_ d) (Status d) (Title d) (Detail d) (Instance d) v
    (Underlying d).

Definition set_Underlying (d : Details) (v : option error) : Details :=
  mkDetails (Type_ d) (Status d) (Title d) (Detail d) (Instance d)
    (Extensions d) v.

Definition WithStatus (status : Z) : Option :=
  fun d h => (set_Status d status, h).

Definition WithDetail (detail : string) : Option :=
  fun d h => (set_Detail d detail, h).

Definition WithInstance (instance : string) : Option :=
  fun d h => (set_Instance d instance, h).

(** [if d.Extensions == nil { d.Extensions = make(map[string]any) }] *)
Definition ensure_Extensions (d : Details) (h : Heap) : loc * Heap :=
  match Extensions d with
  | None => alloc ∅ h
  | Some l => (l, h)
  end.

Definition WithExtension (key : string) (value : any) : Option :=
  fun d h =>
    let '(l, h) := ensure_Extensions d h in
    (set_Extensions d (Some l), <[l := <[key := value]> (deref h (Some l))]> h).

(** [maps.Copy(dst, src)]: every entry of [src] is stored in [dst]. *)
Definition maps_Copy (dst src : gmap string any) : gmap string any := src ∪ dst.

Definition WithExtensions (extensions : option loc) : Option :=
  fun d h =>
    let '(l, h) := ensure_Extensions d h in
    (set_Extensions d (Some l),
     <[l := maps_Copy (deref h (Some l)) (deref h extensions)]> h).

Definition WithUnderlying (err : option error) : Option :=
  fun d h => (set_Underlying d err, h).

(** [for _, opt := range opts { opt(p) }] *)
Definition apply_options (opts : list Option) (d : Details) (h : Heap) :
  Details * Heap :=
  fold_left (fun s (opt : Option) => opt s.1 s.2) opts (d, h).

Definition New (typ title : string) (status : Z) (opts : list Option)
  (h : Heap) : Details * Heap :=
  apply_options opts (mkDetails typ status title "" "" None None) h.

(** The methods [Error] and [Unwrap] of a [Details]. *)
Definition Error (d : Details) : string := Title d.

Definition Unwrap (d : Details) : option error := Underlying d.

(** The names that the fixed fields take in JSON. *)
Definition reserved (k : string) : bool :=
  String.eqb k "type" || String.eqb k "status" || String.eqb k "title"
  || String.eqb k "detail" || String.eqb k "instance".

Section Marshal.

(** The order in which [range] visits the entries of a map is not fixed
    by the language: it is a parameter, an enumeration of the entries. *)
Variable range_order : gmap string any -> list (string * any).

(** [for k, v := range m], with nothing to visit in a nil map. *)
Definition range (h : Heap) (m : option loc) : list (string * any) :=
  match m with
  | None => []
  | Some _ => range_order (deref h m)
  end.

(** A name followed by one token. *)
Definition write_member (enc : Encoder) (name : string) (t : Token) :
  Outcome Encoder :=
  enc ← json.WriteToken enc (jsontext.String name);
  json.WriteToken enc t.

(** The loop over the extensions in [MarshalJSONTo]. *)
Fixpoint marshal_extensions (kvs : list (string * any)) (enc : Encoder) :
  Outcome Encoder :=
  match kvs with
  | [] => Ok enc
  | (k, v) :: rest =>
      if reserved k then marshal_extensions rest enc
      else
        enc ← json.WriteToken enc (jsontext.String k);
        enc ← json.MarshalEncode enc v;
        marshal_extensions rest enc
  end.

Definition MarshalJSONTo (h : Heap) (d : Details) (enc : Encoder) :
  Outcome Encoder :=
  enc ← json.WriteToken enc jsontext.ObjectStart;
  let typ := cmp_Or (Type_ d) AboutBlankTypeURI in
  enc ← (if negb (String.eqb (Type_ d) "")
         then write_member enc "type" (jsontext.String typ)
         else Ok enc);
  enc ← (if negb (Status d =? 0)
         then write_member enc "status" (jsontext.Int (Status d))
         else Ok enc);
  enc ← (if negb (String.eqb (Title d) "")
         then write_member enc "title" (jsontext.String (Title d))
         else Ok enc);
  enc ← (if negb (String.eqb (Detail d) "")
         then write_member enc "detail" (jsontext.String (Detail d))
         else Ok enc);
  enc ← (if negb (String.eqb (Instance d) "")
         then write_member enc "instance" (jsontext.String (Instance d))
         else Ok enc);
  enc ← marshal_extensions (range h (Extensions d)) enc;
  json.WriteToken enc jsontext.ObjectEnd.

(** [json.Marshal(d)] for a [*Details]: [MarshalJSONTo] on a new encoder,
    and the bytes it wrote. *)
Definition json_Marshal (h : Heap) (d : Details) : Outcome Bytes :=
  enc ← MarshalJSONTo h d [];
  Ok (JSONText enc).

End Marshal.

(** [m[key]] on a map that may be nil: the zero value when absent. *)
Definition index (m : option (gmap string any)) (key : string) : any :=
  default nil_ (default ∅ m !! key).

(** [delete(m, key)]; nothing happens on a nil map. *)
Definition delete_key (key : string) (m : option (gmap string any)) :
  option (gmap string any) := delete key <$> m.

(** [len(m)] *)
Definition len (m : option (gmap string any)) : Z := Z.of_nat (size (default ∅ m)).

(** [v, ok := x.(string)] and [v, ok := x.(float64)] *)
Definition assert_string (x : any) : option string :=
  match x with string_ v => Some v | _ => None end.

Definition assert_float64 (x : any) : option float64 :=
  match x with float64_ v => Some v | _ => None end.

Definition UnmarshalJSONFrom (d : Details) (dec : Decoder) (h : Heap) :
  Outcome (Details * Heap) :=
  m ← json.UnmarshalDecode dec;
  let d :=
    match assert_string (index m "type") with
    | Some v => set_Type d v
    | None => d
    end in
  let d :=
    match assert_float64 (index m "status") with
    | Some v =>
        if Float64.eqb (Float64.of_int (Float64.to_int v)) v
        then set_Status d (Float64.to_int v)
        else d
    | None => d
    end in
  let d :=
    match assert_string (index m "title") with
    | Some v => set_Title d v
    | None => d
    end in
  let d :=
    match assert_string (index m "detail") with
    | Some v => set_Detail d v
    | None => d
    end in
  let d :=
    match assert_string (index m "instance") with
    | Some v => set_Instance d v
    | None => d
    end in
  let m := delete_key "type" m in
  let m := delete_key "status" m in
  let m := delete_key "title" m in
  let m := delete_key "detail" m in
  let m := delete_key "instance" m in
  (* the map made by the decoder becomes reachable only here *)
  if negb (len m =? 0) then
    let '(l, h) := alloc (default ∅ m) h in
    Ok (set_Extensions d (Some l), h)
  else Ok (d, h).

(** [errors.As(err, &d)] for [var d *Details]: the [*Details] it stores
    in [d], if any. *)
Fixpoint errors_as (err : error) : option Details :=
  match err with
  | DetailsError d => Some d
  | PlainError _ As_ => As_
  | WrapError _ As_ Unwrap =>
      match As_, Unwrap with
      | Some d, _ => Some d
      | None, Some err => errors_as err
      | None, None => None
      end
  | JoinError _ As_ Unwrap =>
      match As_ with
      | Some d => Some d
      | None =>
          (fix each (errs : list (option error)) : option Details :=
             match errs with
             | [] => None
             | None :: rest => each rest
             | Some err :: rest =>
                 match errors_as err with
                 | Some d => Some d
                 | None => each rest
                 end
             end) Unwrap
      end
  end.

Definition errors_As (err : option error) : option Details :=
  match err with
  | None => None
  | Some err => errors_as err
  end.

Definition Is (err : option error) (t : ProblemType) : bool :=
  match errors_As err with
  | None => false
  | Some d =>
      if negb (String.eqb (URI t) "")
         && negb (String.eqb (URI t) (cmp_Or (Type_ d) AboutBlankTypeURI))
      then false
      else if negb (String.eqb (TypeTitle t) "")
              && negb (String.eqb (TypeTitle t) (Title d))
      then false
      else if negb (TypeStatus t =? 0) && negb (TypeStatus t =? Status d)
      then false
      else true
  end.

(** The method [Details] of a [Type]. *)
Definition Type_Details (t : ProblemType) (opts : list Option) (h : Heap) :
  Details * Heap :=
  let '(d, h) := New (URI t) (TypeTitle t) (TypeStatus t) [] h in
  let '(d, h) :=
    if 0 <? Z.of_nat (size (deref h (TypeExtensions t))) then
      let '(l, h) := alloc (deref h (TypeExtensions t)) h in
      (set_Extensions d (Some l), h)
    else (d, h) in
  apply_options opts d h.

Section Serve.

Variable range_order : gmap string any -> list (string * any).

Definition call (w : ResponseWriter) (c : Call) : ResponseWriter :=
  mkResponseWriter (Header w) (calls w ++ [c]).

Definition ServeHTTP (d : Details) : http_Handler :=
  fun w _ h =>
    match json_Marshal range_order h d with
    | Err err => (w, h, Some (RecoveredError err))
    | Panic v => (w, h, Some v)
    | Ok b =>
        let hd := Header w in
        let hd := Header_Del "Content-Length" hd in
        let hd := Header_Set "Content-Type" ContentType hd in
        let hd := Header_Set "X-Content-Type-Options" "nosniff" hd in
        let w := mkResponseWriter hd (calls w) in
        let w :=
          if negb (Status d =? 0) then call w (WriteHeader (Status d))
          else call w (WriteHeader StatusInternalServerError) in
        let w := call w (Write b) in
        (w, h, None)
    end.

(** ** handler.go *)

Definition InternalServerError : Details :=
  mkDetails "" StatusInternalServerError "Internal Server Error" "" ""
    None None.

Definition Handler (next : http_Handler) : http_Handler :=
  fun w r h =>
    let '(w, h, recovered) := next w r h in
    match recovered with
    | None => (w, h, None)
    | Some recovered =>
        let details :=
          match recovered with
          | RecoveredError err => errors_As (Some err)
          | RecoveredOther _ => None
          end in
        let details :=
          match details with
          | None => InternalServerError
          | Some d => d
          end in
        ServeHTTP details w r h
    end.

End Serve.

(** ** Notions used in the statements *)

(** The zero value of [Details]: the target of a fresh decode. *)
Definition zero_Details : Details := mkDetails "" 0 "" "" "" None None.

(** The JSON member that a fixed field contributes under its name: none
    when the field is empty or zero. *)
Definition fixed_field (d : Details) (k : string) : option Value :=
  if String.eqb k "type" then
    if String.eqb (Type_ d) "" then None else Some (VString (Type_ d))
  else if String.eqb k "status" then
    if Status d =? 0 then None else Some (VInt (Status d))
  else if String.eqb k "title" then
    if String.eqb (Title d) "" then None else Some (VString (Title d))
  else if String.eqb k "detail" then
    if String.eqb (Detail d) "" then None else Some (VString (Detail d))
  else if String.eqb k "instance" then
    if String.eqb (Instance d) "" then None else Some (VString (Instance d))
  else None.

(** The members of the fixed fields, in the order of emission. *)
Definition fixed_members (d : Details) : list (string * Value) :=
  omap (fun k => pair k <$> fixed_field d k)
    ["type"; "status"; "title"; "detail"; "instance"].

(** What the encoder is handed for a list of members whose values are
    written as complete values. *)
Definition members_written (ms : list (string * Value)) : list Written :=
  flat_map (fun kv => [WToken (jsontext.String kv.1); WValue kv.2]) ms.

(** Encoding [d] succeeds and spells the object with members [ms]. *)
Definition encodes_to (range_order : gmap string any -> list (string * any))
  (h : Heap) (d : Details) (ms : list (string * Value)) : Prop :=
  exists enc, MarshalJSONTo range_order h d [] = Ok enc
              /\ jsontext.written_value enc = Some (VObject ms).



(** The magnitude up to which every integer is a binary64 value. *)
Definition exact_float64_bound : Z := 2 ^ 53.

(** A status that survives the way through JSON: an [int] that is a
    binary64 value. *)
Definition exact_status (status : Z) : Prop :=
  Float64.is_int status /\ Float64.exact status.

(** The input of a decoder is not a JSON object: not JSON at all, or a
    JSON value of another kind. *)
Definition not_an_object (dec : Decoder) : Prop :=
  match dec with
  | None => True
  | Some v =>
      jsontext.value_ok v = false
      \/ match v with VObject _ => False | _ => True end
  end.




(** The options of the package, as calls of their constructors. *)
Inductive OptionCall : Type :=
| CallWithStatus (status : Z)
| CallWithDetail (detail : string)
| CallWithInstance (instance : string)
| CallWithExtension (key : string) (value : any)
| CallWithExtensions (extensions : option loc)
| CallWithUnderlying (err : option error).

Definition option_of (c : OptionCall) : Option :=
  match c with
  | CallWithStatus status => WithStatus status
  | CallWithDetail detail => WithDetail detail
  | CallWithInstance instance => WithInstance instance
  | CallWithExtension key value => WithExtension key value
  | CallWithExtensions extensions => WithExtensions extensions
  | CallWithUnderlying err => WithUnderlying err
  end.

(** The value of the last call in the list that writes, if any does. *)
Fixpoint last_write {A : Type} (writes : OptionCall -> option A)
  (cs : list OptionCall) : option A :=
  match cs with
  | [] => None
  | c :: rest =>
      match last_write writes rest with
      | Some v => Some v
      | None => writes c
      end
  end.

Definition writes_Status (c : OptionCall) : option Z :=
  match c with CallWithStatus v => Some v | _ => None end.

Definition writes_Detail (c : OptionCall) : option string :=
  match c with CallWithDetail v => Some v | _ => None end.

Definition writes_Instance (c : OptionCall) : option string :=
  match c with CallWithInstance v => Some v | _ => None end.

Definition writes_Underlying (c : OptionCall) : option (option error) :=
  match c with CallWithUnderlying v => Some v | _ => None end.

(** What a call stores under the extension key [k], reading the maps
    passed to [WithExtensions] in the store [h]. *)
Definition writes_key (h : Heap) (k : string) (c : OptionCall) : option any :=
  match c with
  | CallWithExtension key value => if String.eqb key k then Some value else None
  | CallWithExtensions extensions => deref h extensions !! k
  | _ => None
  end.

(** The maps the calls read are allocated. *)
Definition reads_allocated (h : Heap) (cs : list OptionCall) : Prop :=
  forall l, CallWithExtensions (Some l) ∈ cs -> l ∈ dom h.

(** The [Details] that [Handler] serves for a recovered value. *)
Definition resolve (recovered : Recovered) : Details :=
  match recovered with
  | RecoveredError err => default InternalServerError (errors_As (Some err))
  | RecoveredOther _ => InternalServerError
  end.



(** The claim that an empty [Type] is written as about:blank. *)
Definition emits_about_blank (range_order : gmap string any -> list (string * any))
  (h : Heap) (d : Details) : Prop :=
  exists ms, encodes_to range_order h d ms
             /\ ("type", VString AboutBlankTypeURI) ∈ ms.

(** The five [delete]s leave the entries that are not under a reserved
    name. *)
Definition delete_reserved (m : option (gmap string any)) :
  option (gmap string any) :=
  delete_key "instance"
    (delete_key "detail"
       (delete_key "title" (delete_key "status" (delete_key "type" m)))).


(** The claim of C4 for one input: decoding reports an error. *)
Definition rejects (d : Details) (dec : Decoder) (h : Heap) : Prop :=
  exists err, UnmarshalJSONFrom d dec h = Err err.


(** The store [h0] has the maps of [h] as they are in [h], and the
    extensions of [d], if any, are a map that [h] does not have. *)
Definition extends (h : Heap) (d : Details) (h0 : Heap) : Prop :=
  (forall l, l ∈ dom h -> h0 !! l = h !! l)
  /\ (forall l, Extensions d = Some l -> (l ∉ dom h) /\ l ∈ dom h0).

(** The value [ServeHTTP] panics with when encoding ends as [o]. *)
Definition panic_of {A : Type} (o : Outcome A) : option Recovered :=
  match o with
  | Ok _ => None
  | Err err => Some (RecoveredError err)
  | Panic v => Some v
  end.



(** *** Further notions *)

(** The four strings of the fixed fields are valid UTF-8. *)
Definition fixed_strings_valid (d : Details) : bool :=
  UTF8.valid (Type_ d) && UTF8.valid (Title d) && UTF8.valid (Detail d)
  && UTF8.valid (Instance d).

(** What the encoder is handed for the fixed fields that are set. *)
Definition fixed_written (d : Details) : list Written :=
  (if String.eqb (Type_ d) "" then []
   else [WToken (jsontext.String "type"); WToken (jsontext.String (Type_ d))])
  ++ (if Status d =? 0 then []
      else [WToken (jsontext.String "status"); WToken (jsontext.Int (Status d))])
  ++ (if String.eqb (Title d) "" then []
      else [WToken (jsontext.String "title"); WToken (jsontext.String (Title d))])
  ++ (if String.eqb (Detail d) "" then []
      else [WToken (jsontext.String "detail");
            WToken (jsontext.String (Detail d))])
  ++ (if String.eqb (Instance d) "" then []
      else [WToken (jsontext.String "instance");
            WToken (jsontext.String (Instance d))]).

(** An extension entry that the encoder accepts: the key is valid UTF-8
    and the value has a JSON encoding. *)
Definition entry_encodable (k : string) (v : any) : Prop :=
  UTF8.valid k = true /\ exists jv, json.marshal v = Ok jv.

(** A [Details] that can be encoded: valid strings in the fixed fields,
    and every extension that is not under a reserved name is accepted. *)
Definition encodable (h : Heap) (d : Details) : Prop :=
  fixed_strings_valid d = true
  /\ forall k v, deref h (Extensions d) !! k = Some v -> reserved k = false ->
                 entry_encodable k v.

(** The JSON member of an extension entry, if the entry is written. *)
Definition extension_member (h : Heap) (d : Details) (k : string) (jv : Value) :
  Prop :=
  reserved k = false
  /\ exists v, deref h (Extensions d) !! k = Some v /\ json.marshal v = Ok jv.


(** The status that the options leave. *)
Definition final_Status (status : Z) (cs : list OptionCall) : Z :=
  default status (last_write writes_Status cs).

(** Two calls that write different things: different fields, or
    extensions under different keys. *)
Definition independent (c1 c2 : OptionCall) : Prop :=
  match c1, c2 with
  | CallWithStatus _, CallWithStatus _
  | CallWithDetail _, CallWithDetail _
  | CallWithInstance _, CallWithInstance _
  | CallWithUnderlying _, CallWithUnderlying _ => False
  | CallWithExtension k1 _, CallWithExtension k2 _ => k1 <> k2
  | CallWithExtensions _, _ | _, CallWithExtensions _ => False
  | _, _ => True
  end.



(** The call stores into the extensions. *)
Definition writes_extensions (c : OptionCall) : bool :=
  match c with
  | CallWithExtension _ _ | CallWithExtensions _ => true
  | _ => false
  end.

(** *** Concrete inputs *)

(** [range] in the order of [map_to_list]. *)
Definition listed_order (m : gmap string any) : list (string * any) :=
  map_to_list m.

Definition only_title : Details := mkDetails "" 0 "T" "" "" None None.

Definition only_title_JSON : Encoder :=
  [WToken jsontext.ObjectStart;
   WToken (jsontext.String "title"); WToken (jsontext.String "T");
   WToken jsontext.ObjectEnd].

(** A store with one map, which has an entry under a reserved name. *)
Definition shadowing_store : Heap :=
  {[ 1%positive :=
       ({[ "title" := string_ "I am a teapot"; "balance" := int_ 30 ]}
          : gmap string any) ]}.

Definition shadowed : Details :=
  mkDetails "https://x/y" 403 "" "" "" (Some 1%positive) None.

Definition shadowed_JSON : Encoder :=
  [WToken jsontext.ObjectStart;
   WToken (jsontext.String "type"); WToken (jsontext.String "https://x/y");
   WToken (jsontext.String "status"); WToken (jsontext.Int 403);
   WToken (jsontext.String "balance"); WValue (VInt 30);
   WToken jsontext.ObjectEnd].

Definition forbidden : Details :=
  mkDetails "https://x/y" 403 "T" "" "" None None.


Definition teapot : Details :=
  mkDetails "" 418 "I am a teapot" "" "" None None.

Definition a_request : Request := mkRequest "GET" "/account/12345/msgs/abc".

Definition a_writer : ResponseWriter :=
  mkResponseWriter {[ "Content-Length" := ["1337"];
                      "Content-Type" := ["application/xml"] ]} [].

(** A store with one map, holding a value whose [MarshalJSON] panics. *)
Definition broken_store : Heap :=
  {[ 1%positive :=
       ({[ "invalid" := marshaler_ (Panics "MarshalJSON called") ]}
          : gmap string any) ]}.

Definition broken : Details :=
  mkDetails "" 0 "" "" "" (Some 1%positive) None.


(** A handler that writes a text. *)
Definition textHandler (text : string) : http_Handler :=
  fun w _ h =>
    (mkResponseWriter (Header_Set "Content-Type" "text/plain" (Header w))
       (calls w ++ [Write (Text text)]), h, None).



Definition credit_calls : list OptionCall :=
  [CallWithStatus 418; CallWithExtension "balance" (int_ 30);
   CallWithExtension "currency" (string_ "USD")].

(** The JSON object with the one member status, a string. *)
Definition status_as_string : list (string * Value) :=
  [("status", VString "403")].

(** An error that wraps [teapot]. *)
Definition wrappedDetailsError : error :=
  WrapError "" None (Some (DetailsError teapot)).



(** * Properties *)

(** ** Encoding *)

Lemma bind_Ok {A B : Type} (o : Outcome A) (k : A -> Outcome B) (b : B) :
  o ≫= k = Ok b -> exists a, o = Ok a /\ k a = Ok b.
Proof. destruct o as [a| |]; cbn; intros H; [eauto|discriminate..]. Qed.

Lemma WriteToken_Ok enc t enc' :
  json.WriteToken enc t = Ok enc' -> enc' = (enc ++ [WToken t]).
Proof.
  unfold json.WriteToken. destruct t; try (intros [= <-]; reflexivity).
  destruct (UTF8.valid s); [intros [= <-]; reflexivity|discriminate].
Qed.

Lemma write_member_Ok enc name t enc' :
  write_member enc name t = Ok enc' ->
  enc' = (enc ++ [WToken (jsontext.String name); WToken t]).
Proof.
  unfold write_member. intros H.
  apply bind_Ok in H as (enc1 & H1 & H2).
  apply WriteToken_Ok in H1 as ->. apply WriteToken_Ok in H2 as ->.
  rewrite <- app_assoc. reflexivity.
Qed.

(** A field that is written only when set. *)
Lemma optional_member_Ok (set : bool) enc name t enc' :
  (if set then write_member enc name t else Ok enc) = Ok enc' ->
  enc' = (enc ++ if set then [WToken (jsontext.String name); WToken t] else []).
Proof.
  destruct set; [apply write_member_Ok|].
  intros [= <-]. rewrite app_nil_r. reflexivity.
Qed.

Lemma members_of_written (ms : list (string * Value)) :
  jsontext.members_of (members_written ms ++ [WToken jsontext.ObjectEnd])
  = Some ms.
Proof.
  induction ms as [|[k v] ms IH]; [reflexivity|].
  cbn [members_written flat_map app jsontext.members_of jsontext.value_of fst snd].
  fold (members_written ms). rewrite IH. reflexivity.
Qed.

(** The loop writes, after what was there, one member for some of the
    visited entries, in the order of the visit, none of them under a
    reserved name. *)
Lemma marshal_extensions_written kvs : forall enc enc',
  marshal_extensions kvs enc = Ok enc' ->
  exists ms,
    enc' = enc ++ members_written ms
    /\ Forall (fun kv => reserved kv.1 = false) ms
    /\ Forall (fun kv => exists v, (kv.1, v) ∈ kvs /\ json.marshal v = Ok kv.2) ms
    /\ ms.*1 `sublist_of` kvs.*1.
Proof.
  induction kvs as [|[k v] kvs IH]; intros enc enc' H; cbn [marshal_extensions] in H.
  - injection H as <-. exists []. rewrite app_nil_r. repeat constructor.
  - destruct (reserved k) eqn:Hk.
    + destruct (IH _ _ H) as (ms & -> & Hres & Hfrom & Hsub).
      exists ms. split; [reflexivity|]. split; [assumption|]. split.
      * eapply Forall_impl; [exact Hfrom|].
        intros kv (v' & Hin & Hm). exists v'. split; [by right|assumption].
      * apply sublist_cons. exact Hsub.
    + apply bind_Ok in H as (enc1 & H1 & H).
      apply bind_Ok in H as (enc2 & H2 & H).
      apply WriteToken_Ok in H1 as ->.
      unfold json.MarshalEncode in H2.
      apply bind_Ok in H2 as (jv & Hv & [= <-]).
      destruct (IH _ _ H) as (ms & -> & Hres & Hfrom & Hsub).
      exists ((k, jv) :: ms). split.
      { cbn [members_written flat_map]. fold (members_written ms).
        rewrite <- !app_assoc. reflexivity. }
      split.
      { constructor; assumption. }
      split.
      { constructor.
        { exists v. split; [by left|assumption]. }
        eapply Forall_impl; [exact Hfrom|].
        intros kv (v' & Hin & Hm). exists v'. split; [by right|assumption]. }
      apply sublist_skip. exact Hsub.
Qed.

Section Encoding.

Variable range_order : gmap string any -> list (string * any).

(** The output of [MarshalJSONTo] spells an object: the members of the
    fixed fields that are set, then members for extensions, none under a
    reserved name. *)
Lemma MarshalJSONTo_members h d enc :
  MarshalJSONTo range_order h d [] = Ok enc ->
  exists ext,
    jsontext.written_value enc = Some (VObject (fixed_members d ++ ext))
    /\ Forall (fun kv => reserved kv.1 = false) ext
    /\ Forall (fun kv => exists v, (kv.1, v) ∈ range range_order h (Extensions d)
                                   /\ json.marshal v = Ok kv.2) ext
    /\ ext.*1 `sublist_of` (range range_order h (Extensions d)).*1.
Proof.
  intros H. unfold MarshalJSONTo in H.
  apply bind_Ok in H as (e0 & H0 & H). apply WriteToken_Ok in H0 as ->.
  cbv zeta in H.
  apply bind_Ok in H as (e1 & H1 & H). apply optional_member_Ok in H1 as ->.
  apply bind_Ok in H as (e2 & H2 & H). apply optional_member_Ok in H2 as ->.
  apply bind_Ok in H as (e3 & H3 & H). apply optional_member_Ok in H3 as ->.
  apply bind_Ok in H as (e4 & H4 & H). apply optional_member_Ok in H4 as ->.
  apply bind_Ok in H as (e5 & H5 & H). apply optional_member_Ok in H5 as ->.
  apply bind_Ok in H as (e6 & H6 & H).
  apply marshal_extensions_written in H6 as (ms & -> & Hres & Hfrom & Hsub).
  apply WriteToken_Ok in H as ->.
  exists ms. split; [|split; [|split]; assumption].
  destruct d as [typ status title detail instance ext und].
  unfold fixed_members, fixed_field, cmp_Or.
  cbn [Type_ Status Title Detail Instance Extensions omap String.eqb Ascii.eqb Bool.eqb].
  destruct (String.eqb typ ""), (status =? 0), (String.eqb title ""),
    (String.eqb detail ""), (String.eqb instance "");
    cbn -[members_written]; rewrite <- ?app_assoc; cbn -[members_written];
    rewrite members_of_written; reflexivity.
Qed.

End Encoding.

Lemma reserved_names k :
  reserved k = true <->
  k = "type" \/ k = "status" \/ k = "title" \/ k = "detail" \/ k = "instance".
Proof.
  unfold reserved. rewrite !orb_true_iff, !String.eqb_eq. tauto.
Qed.

Lemma fixed_field_reserved d k v : fixed_field d k = Some v -> reserved k = true.
Proof.
  unfold fixed_field, reserved.
  destruct (String.eqb k "type"); [reflexivity|].
  destruct (String.eqb k "status"); [reflexivity|].
  destruct (String.eqb k "title"); [reflexivity|].
  destruct (String.eqb k "detail"); [reflexivity|].
  destruct (String.eqb k "instance"); [reflexivity|discriminate].
Qed.

(** The members of the fixed fields are the fixed fields that are set. *)
Lemma elem_of_fixed_members d k v :
  (k, v) ∈ fixed_members d <-> fixed_field d k = Some v.
Proof.
  unfold fixed_members. rewrite list_elem_of_omap. split.
  - intros (k' & _ & Hk'). destruct (fixed_field d k') eqn:E; [|discriminate].
    cbn in Hk'. injection Hk' as -> ->. assumption.
  - intros H. exists k. split; [|rewrite H; reflexivity].
    apply fixed_field_reserved, reserved_names in H.
    destruct H as [->|[->|[->|[->| ->]]]]; set_solver.
Qed.

Lemma fixed_members_names_NoDup d : NoDup (map fst (fixed_members d)).
Proof.
  unfold fixed_members, fixed_field.
  cbn [omap String.eqb Ascii.eqb Bool.eqb].
  destruct (String.eqb (Type_ d) ""), (Status d =? 0), (String.eqb (Title d) ""),
    (String.eqb (Detail d) ""), (String.eqb (Instance d) "");
    cbn; apply (bool_decide_unpack _); vm_compute; exact I.
Qed.

Section RangeOrder.

Variable range_order : gmap string any -> list (string * any).

(** What the language promises of [range]: every entry once. *)
Hypothesis range_order_perm : forall m, range_order m ≡ₚ map_to_list m.

(** The names of the written object are distinct: the encoder's check
    for duplicate names cannot fail on what [MarshalJSONTo] writes. *)
Lemma MarshalJSONTo_names_NoDup h d enc :
  MarshalJSONTo range_order h d [] = Ok enc ->
  exists ms,
    jsontext.written_value enc = Some (VObject ms) /\ NoDup ms.*1.
Proof.
  intros H. apply MarshalJSONTo_members in H as (ext & Hw & Hres & _ & Hsub).
  exists (fixed_members d ++ ext). split; [exact Hw|].
  rewrite fmap_app. apply NoDup_app. split; [|split].
  - apply fixed_members_names_NoDup.
  - intros k Hfixed Hext.
    apply list_elem_of_fmap in Hfixed as ([k1 v1] & -> & Hfixed).
    apply list_elem_of_fmap in Hext as ([k2 v2] & Hk & Hext).
    cbn in Hk. subst k2.
    apply elem_of_fixed_members, fixed_field_reserved in Hfixed.
    rewrite Forall_forall in Hres. apply Hres in Hext. cbn in Hext.
    congruence.
  - eapply sublist_NoDup; [|exact Hsub].
    unfold range. destruct (Extensions d) as [l|]; [|constructor].
    rewrite (range_order_perm (deref h (Some l))).
    apply NoDup_fst_map_to_list.
Qed.

End RangeOrder.

Section EncodingClaims.

Variable range_order : gmap string any -> list (string * any).

(** C2. Whenever encoding succeeds, the written object consists of the
    members of the fixed fields that are set, followed by members for
    extensions, none of which is under one of the names type, status,
    title, detail, instance. So a member under such a name is the member
    of the fixed field of that name, and there is none when that field is
    empty or zero, whatever the extensions hold. *)
Theorem reserved_keys_reflect_fixed_fields h d enc :
  MarshalJSONTo range_order h d [] = Ok enc ->
  exists ext,
    jsontext.written_value enc = Some (VObject (fixed_members d ++ ext))
    /\ Forall (fun kv => reserved kv.1 = false) ext
    /\ forall k v, reserved k = true ->
                   ((k, v) ∈ fixed_members d ++ ext <-> fixed_field d k = Some v).
Proof.
  intros H. apply MarshalJSONTo_members in H as (ext & Hw & Hres & _ & _).
  exists ext. split; [exact Hw|]. split; [exact Hres|].
  intros k v Hk. rewrite elem_of_app, elem_of_fixed_members. split.
  - intros [Hf|Hext]; [exact Hf|].
    rewrite Forall_forall in Hres. apply Hres in Hext. cbn in Hext. congruence.
  - intros Hf. left. exact Hf.
Qed.

(** C1, as amended. Whenever encoding a [Details] with an empty [Type]
    succeeds, the written object has no member named type. *)
Theorem empty_type_is_omitted h d enc :
  Type_ d = "" ->
  MarshalJSONTo range_order h d [] = Ok enc ->
  exists ms,
    jsontext.written_value enc = Some (VObject ms)
    /\ forall v, (("type", v) : string * Value) ∉ ms.
Proof.
  intros Hty H. apply MarshalJSONTo_members in H as (ext & Hw & Hres & _ & _).
  exists (fixed_members d ++ ext). split; [exact Hw|].
  intros v. rewrite elem_of_app, elem_of_fixed_members. intros [Hf|Hext].
  - unfold fixed_field in Hf. rewrite Hty in Hf. discriminate.
  - rewrite Forall_forall in Hres. apply Hres in Hext. discriminate.
Qed.

End EncodingClaims.

Lemma reserved_keys_reflect_fixed_fields_witness :
  MarshalJSONTo listed_order shadowing_store shadowed [] = Ok shadowed_JSON
  /\ exists ext,
      jsontext.written_value shadowed_JSON
      = Some (VObject (fixed_members shadowed ++ ext))
      /\ Forall (fun kv => reserved kv.1 = false) ext
      /\ forall k v, reserved k = true ->
                     ((k, v) ∈ fixed_members shadowed ++ ext
                      <-> fixed_field shadowed k = Some v).
Proof.
  split; [vm_compute; reflexivity|].
  apply (reserved_keys_reflect_fixed_fields listed_order shadowing_store).
  vm_compute; reflexivity.
Defined.

Lemma empty_type_is_omitted_witness :
  exists ms,
    jsontext.written_value only_title_JSON = Some (VObject ms)
    /\ forall v, (("type", v) : string * Value) ∉ ms.
Proof.
  apply (empty_type_is_omitted listed_order ∅ only_title).
  - reflexivity.
  - vm_compute; reflexivity.
Defined.

(** C1, as stated, fails: with an empty [Type] and a title, no member
    type with the value about:blank is written. *)
Lemma empty_type_not_about_blank :
  ~ emits_about_blank listed_order ∅ only_title.
Proof.
  intros (ms & (enc & Henc & Hw) & Hin).
  vm_compute in Henc. injection Henc as <-.
  vm_compute in Hw. injection Hw as <-.
  apply list_elem_of_singleton in Hin. discriminate.
Qed.

(** ** Numbers *)

Lemma round_binary64_exact z :
  Z.abs z <= exact_float64_bound -> Float64.round_binary64 z = z.
Proof.
  unfold exact_float64_bound, Float64.round_binary64. intros Hz.
  destruct (Z.abs z <? 2 ^ 53) eqn:E; [reflexivity|].
  apply Z.ltb_ge in E.
  assert (z = 2 ^ 53 \/ z = - 2 ^ 53) as [-> | ->] by lia; reflexivity.
Qed.


(** Every integer of magnitude up to 2^53 is an exact status. *)
Lemma small_exact_status z : Z.abs z <= exact_float64_bound -> exact_status z.
Proof.
  intros Hz. split; [|exact (round_binary64_exact z Hz)].
  unfold exact_float64_bound in Hz.
  unfold Float64.is_int, Float64.min_int, Float64.max_int. lia.
Qed.



(** ** Decoding *)






(** Decoding a valid JSON object succeeds, and sets the fields from the
    map of its members. *)
Lemma UnmarshalJSONFrom_object d ms h :
  jsontext.value_ok (VObject ms) = true ->
  let m := Some (json.object_map json.unmarshal ms) in
  exists d' h',
    UnmarshalJSONFrom d (Some (VObject ms)) h = Ok (d', h')
    /\ Type_ d' = default (Type_ d) (assert_string (index m "type"))
    /\ Status d' =
         match assert_float64 (index m "status") with
         | Some v =>
             if Float64.eqb (Float64.of_int (Float64.to_int v)) v
             then Float64.to_int v else Status d
         | None => Status d
         end
    /\ Title d' = default (Title d) (assert_string (index m "title"))
    /\ Detail d' = default (Detail d) (assert_string (index m "detail"))
    /\ Instance d' = default (Instance d) (assert_string (index m "instance"))
    /\ Underlying d' = Underlying d
    /\ (if len (delete_reserved m) =? 0
        then Extensions d' = Extensions d /\ h' = h
        else exists l, (l ∉ dom h) /\ Extensions d' = Some l
                       /\ h' = <[l := default ∅ (delete_reserved m)]> h).
Proof.
  intros Hok m. unfold UnmarshalJSONFrom, json.UnmarshalDecode.
  rewrite Hok. cbn [mbind Outcome_bind]. fold m.
  fold (delete_reserved m). unfold alloc, set_Extensions.
  generalize (is_fresh (dom h)). generalize (fresh (dom h)). intros l Hl.
  generalize (len (delete_reserved m) =? 0). intros empty.
  generalize (default ∅ (delete_reserved m)). intros rest.
  destruct (assert_string (index m "type")),
    (assert_float64 (index m "status")) as [v|],
    (assert_string (index m "title")),
    (assert_string (index m "detail")),
    (assert_string (index m "instance"));
    try destruct (Float64.eqb (Float64.of_int (Float64.to_int v)) v);
    destruct empty; cbn [negb];
    (eexists _, _; split; [reflexivity|]);
    cbn [Type_ Status Title Detail Instance Extensions Underlying default
         set_Type set_Status set_Title set_Detail set_Instance];
    unfold id; repeat split;
    exists l; repeat split; exact Hl.
Qed.

Lemma UTF8_valid_names :
  UTF8.valid "type" = true /\ UTF8.valid "status" = true
  /\ UTF8.valid "title" = true /\ UTF8.valid "detail" = true
  /\ UTF8.valid "instance" = true.
Proof. repeat split; vm_compute; reflexivity. Qed.


Lemma write_member_int enc name i :
  UTF8.valid name = true ->
  write_member enc name (jsontext.Int i)
  = Ok (enc ++ [WToken (jsontext.String name); WToken (jsontext.Int i)]).
Proof.
  intros Hn. unfold write_member, json.WriteToken. rewrite Hn.
  cbn [mbind Outcome_bind]. rewrite <- app_assoc. reflexivity.
Qed.

Section RoundTrip.

Variable range_order : gmap string any -> list (string * any).




End RoundTrip.



(** C4, as amended. Decoding input that is not valid JSON, or whose
    value is a string, a number, an array or a boolean, returns an error;
    decoding [null] returns no error and leaves the [Details] and the
    store as they were. *)
Theorem not_an_object_is_rejected_unless_null d dec h :
  not_an_object dec ->
  match dec with
  | Some VNull => UnmarshalJSONFrom d dec h = Ok (d, h)
  | _ => rejects d dec h
  end.
Proof.
  unfold not_an_object, rejects, UnmarshalJSONFrom, json.UnmarshalDecode.
  destruct dec as [v|]; [|intros _; eexists; reflexivity].
  intros [Hbad|Hkind].
  - rewrite Hbad. destruct v; try discriminate; eexists; reflexivity.
  - destruct v; try contradiction;
      try (destruct (jsontext.value_ok _); eexists; reflexivity).
    reflexivity.
Qed.

Lemma not_an_object_is_rejected_unless_null_witness :
  rejects zero_Details (Some (VString "invalid")) ∅.
Proof.
  apply (not_an_object_is_rejected_unless_null zero_Details
           (Some (VString "invalid")) ∅).
  right. exact I.
Defined.

(** C4, as stated, fails: [null] is not a JSON object, and decoding it
    reports no error. *)
Lemma null_is_not_rejected :
  not_an_object (Some VNull) /\ ~ rejects zero_Details (Some VNull) ∅.
Proof.
  split; [right; exact I|].
  intros [err H]. vm_compute in H. discriminate.
Qed.





(** The status "403", a string, is ignored without an error. *)
Example decode_status_as_string :
  UnmarshalJSONFrom zero_Details (Some (VObject status_as_string)) ∅
  = Ok (zero_Details, ∅).
Proof. vm_compute. reflexivity. Qed.

(** ** Matching *)





(** The cases of the package's test of [Is]. *)
Example Is_no_error : Is None (mkType "" "" 0 None) = false.
Proof. reflexivity. Qed.

Example Is_not_details :
  Is (Some (errors_New "EOF")) (mkType "" "" 0 None) = false.
Proof. reflexivity. Qed.

Example Is_about_blank_matches_empty_type :
  Is (Some (DetailsError zero_Details)) (mkType AboutBlankTypeURI "" 0 None)
  = true.
Proof. reflexivity. Qed.

Example Is_mismatched_status :
  Is (Some (DetailsError forbidden)) (mkType "" "" 418 None) = false.
Proof. reflexivity. Qed.

(** ** Instantiating a type *)

Lemma deref_insert_eq (h : Heap) l m : deref (<[l := m]> h) (Some l) = m.
Proof. unfold deref. rewrite lookup_insert_eq. reflexivity. Qed.

Lemma extends_dom h d h0 l : extends h d h0 -> l ∈ dom h -> l ∈ dom h0.
Proof.
  intros [Hsame _] Hl. apply elem_of_dom. rewrite (Hsame l Hl).
  apply elem_of_dom. exact Hl.
Qed.

(** [ensure_Extensions] yields a map of the instance, with the entries
    the instance had. *)
Lemma ensure_Extensions_spec h d h0 :
  extends h d h0 ->
  exists l h1,
    ensure_Extensions d h0 = (l, h1)
    /\ (l ∉ dom h) /\ l ∈ dom h1
    /\ (forall l', l' ∈ dom h -> h1 !! l' = h !! l')
    /\ deref h1 (Some l) = deref h0 (Extensions d).
Proof.
  intros Hext. pose proof Hext as [Hsame Hmine]. unfold ensure_Extensions.
  destruct (Extensions d) as [l|] eqn:E.
  - destruct (Hmine l eq_refl) as [Hl Hl0].
    exists l, h0. repeat split; assumption.
  - unfold alloc. pose proof (is_fresh (dom h0)) as Hfresh.
    set (l := fresh (dom h0)) in *.
    assert (l ∉ dom h) as Hl.
    { intros Hin. apply Hfresh. eapply extends_dom; eassumption. }
    exists l, (<[l := ∅]> h0). split; [reflexivity|]. split; [exact Hl|].
    split; [apply elem_of_dom; rewrite lookup_insert_eq; eauto|].
    split; [|apply deref_insert_eq].
    intros l' Hl'. rewrite lookup_insert_ne by (intros ->; contradiction).
    apply Hsame. exact Hl'.
Qed.

(** One option, applied to an instance whose extensions are its own. *)
Lemma option_of_spec h c d0 h0 :
  extends h d0 h0 -> reads_allocated h [c] ->
  exists d1 h1,
    option_of c d0 h0 = (d1, h1)
    /\ extends h d1 h1
    /\ Type_ d1 = Type_ d0 /\ Title d1 = Title d0
    /\ Status d1 = default (Status d0) (writes_Status c)
    /\ Detail d1 = default (Detail d0) (writes_Detail c)
    /\ Instance d1 = default (Instance d0) (writes_Instance c)
    /\ Underlying d1 = default (Underlying d0) (writes_Underlying c)
    /\ (forall k, deref h1 (Extensions d1) !! k
                  = match writes_key h k c with
                    | Some v => Some v
                    | None => deref h0 (Extensions d0) !! k
                    end).
Proof.
  intros Hext Hreads.
  destruct c as [status|detail|instance|key value|extensions|err];
    cbn [option_of writes_Status writes_Detail writes_Instance
         writes_Underlying writes_key default].
  1-3,6: eexists _, _; split; [reflexivity|];
    split; [exact Hext|]; repeat (split; [reflexivity|]);
    intros k; reflexivity.
  - unfold WithExtension.
    destruct (ensure_Extensions_spec h d0 h0 Hext)
      as (l & h1 & -> & Hl & Hl1 & Hsame1 & Hderef).
    eexists _, _. split; [reflexivity|].
    cbn [set_Extensions Type_ Status Title Detail Instance Extensions Underlying].
    split.
    { split.
      - intros l' Hl'. rewrite lookup_insert_ne by (intros ->; contradiction).
        apply Hsame1. exact Hl'.
      - intros l' [= <-]. split; [exact Hl|].
        apply elem_of_dom. rewrite lookup_insert_eq. eauto. }
    repeat (split; [reflexivity|]).
    intros k. rewrite deref_insert_eq, Hderef.
    destruct (String.eqb_spec key k) as [->|Hne].
    + apply lookup_insert_eq.
    + apply lookup_insert_ne. exact Hne.
  - unfold WithExtensions.
    destruct (ensure_Extensions_spec h d0 h0 Hext)
      as (l & h1 & -> & Hl & Hl1 & Hsame1 & Hderef).
    eexists _, _. split; [reflexivity|].
    cbn [set_Extensions Type_ Status Title Detail Instance Extensions Underlying].
    split.
    { split.
      - intros l' Hl'. rewrite lookup_insert_ne by (intros ->; contradiction).
        apply Hsame1. exact Hl'.
      - intros l' [= <-]. split; [exact Hl|].
        apply elem_of_dom. rewrite lookup_insert_eq. eauto. }
    repeat (split; [reflexivity|]).
    intros k. rewrite deref_insert_eq, Hderef. unfold maps_Copy.
    assert (deref h1 extensions = deref h extensions) as ->.
    { unfold deref. destruct extensions as [le|]; [|reflexivity].
      rewrite Hsame1; [reflexivity|]. apply Hreads. by left. }
    destruct (deref h extensions !! k) as [v|] eqn:E.
    + apply lookup_union_Some_l. exact E.
    + apply lookup_union_r. exact E.
Qed.

(** The options in order: for each field and each extension key, the
    last call that writes it decides. *)
Lemma apply_options_spec h cs : forall d0 h0,
  extends h d0 h0 -> reads_allocated h cs ->
  exists d h',
    apply_options (map option_of cs) d0 h0 = (d, h')
    /\ extends h d h'
    /\ Type_ d = Type_ d0 /\ Title d = Title d0
    /\ Status d = default (Status d0) (last_write writes_Status cs)
    /\ Detail d = default (Detail d0) (last_write writes_Detail cs)
    /\ Instance d = default (Instance d0) (last_write writes_Instance cs)
    /\ Underlying d = default (Underlying d0) (last_write writes_Underlying cs)
    /\ (forall k, deref h' (Extensions d) !! k
                  = match last_write (writes_key h k) cs with
                    | Some v => Some v
                    | None => deref h0 (Extensions d0) !! k
                    end).
Proof.
  induction cs as [|c cs IH]; intros d0 h0 Hext Hreads.
  - exists d0, h0. split; [reflexivity|]. split; [exact Hext|].
    repeat (split; [reflexivity|]). intros k. reflexivity.
  - destruct (option_of_spec h c d0 h0 Hext) as
      (d1 & h1 & Hrun1 & Hext1 & T1 & Ti1 & S1 & D1 & I1 & U1 & K1).
    { intros l Hl. apply Hreads. apply list_elem_of_singleton in Hl as <-.
      by left. }
    destruct (IH d1 h1 Hext1) as
      (d & h' & Hrun & Hext' & T & Ti & S & D & I & U & K).
    { intros l Hl. apply Hreads. by right. }
    exists d, h'. split.
    { unfold apply_options in *. cbn [map fold_left fst snd].
      rewrite Hrun1. exact Hrun. }
    split; [exact Hext'|].
    cbn [last_write].
    split; [congruence|]. split; [congruence|].
    split; [rewrite S, S1; destruct (last_write writes_Status cs); reflexivity|].
    split; [rewrite D, D1; destruct (last_write writes_Detail cs); reflexivity|].
    split; [rewrite I, I1; destruct (last_write writes_Instance cs); reflexivity|].
    split; [rewrite U, U1; destruct (last_write writes_Underlying cs); reflexivity|].
    intros k. rewrite K, K1.
    destruct (last_write (writes_key h k) cs); reflexivity.
Qed.



(** ** Serving *)

Section Serving.

Variable range_order : gmap string any -> list (string * any).

(** C8. When encoding fails, by a returned error or by a panic of an
    extension's own encoding, [ServeHTTP] ends in a panic, and the
    response writer is as it was: no header changed, no status and no
    body written. *)
Theorem ServeHTTP_encoding_failure d w r h :
  succeeded (json_Marshal range_order h d) = false ->
  exists v,
    panic_of (json_Marshal range_order h d) = Some v
    /\ ServeHTTP range_order d w r h = (w, h, Some v).
Proof.
  intros Hfail. unfold ServeHTTP.
  destruct (json_Marshal range_order h d) as [b|err|v]; cbn in Hfail |- *.
  - discriminate.
  - exists (RecoveredError err). split; reflexivity.
  - exists v. split; reflexivity.
Qed.






End Serving.

Lemma ServeHTTP_encoding_failure_witness :
  exists v,
    panic_of (json_Marshal listed_order broken_store broken) = Some v
    /\ ServeHTTP listed_order broken a_writer a_request broken_store
       = (a_writer, broken_store, Some v).
Proof.
  apply (ServeHTTP_encoding_failure listed_order broken a_writer a_request
           broken_store).
  vm_compute. reflexivity.
Defined.




(** The cases of the package's test of [Handler]. *)
Example Handler_no_error :
  Handler listed_order (textHandler "Hello World") a_writer a_request ∅
  = textHandler "Hello World" a_writer a_request ∅.
Proof. reflexivity. Qed.

Example Handler_wrapped_details :
  resolve (RecoveredError wrappedDetailsError) = teapot.
Proof. reflexivity. Qed.

Example Handler_not_details :
  resolve (RecoveredError (errors_New "not details")) = InternalServerError.
Proof. reflexivity. Qed.

(** * Further properties *)

(** ** The size of a value *)






(** ** More on encoding *)

Lemma optional_string_member enc name s :
  UTF8.valid name = true ->
  (if negb (String.eqb s "")
   then write_member enc name (jsontext.String s) else Ok enc)
  = if UTF8.valid s
    then Ok (enc ++ if String.eqb s "" then []
                    else [WToken (jsontext.String name);
                          WToken (jsontext.String s)])
    else Err json.ErrInvalidUTF8.
Proof.
  intros Hn. destruct (String.eqb_spec s "") as [->|Hs]; cbn [negb].
  - rewrite app_nil_r. reflexivity.
  - unfold write_member, json.WriteToken. rewrite Hn. cbn [mbind Outcome_bind].
    destruct (UTF8.valid s); [rewrite <- app_assoc|]; reflexivity.
Qed.

Lemma write_member_string_or_error enc name s :
  UTF8.valid name = true ->
  write_member enc name (jsontext.String s)
  = if UTF8.valid s
    then Ok (enc ++ [WToken (jsontext.String name); WToken (jsontext.String s)])
    else Err json.ErrInvalidUTF8.
Proof.
  intros Hn. unfold write_member, json.WriteToken. rewrite Hn.
  cbn [mbind Outcome_bind].
  destruct (UTF8.valid s); [rewrite <- app_assoc|]; reflexivity.
Qed.

Lemma optional_int_member enc name i :
  UTF8.valid name = true ->
  (if negb (i =? 0) then write_member enc name (jsontext.Int i) else Ok enc)
  = Ok (enc ++ if i =? 0 then []
               else [WToken (jsontext.String name); WToken (jsontext.Int i)]).
Proof.
  intros Hn. destruct (i =? 0); cbn [negb].
  - rewrite app_nil_r. reflexivity.
  - apply write_member_int. exact Hn.
Qed.

Section EncodingRun.

Variable range_order : gmap string any -> list (string * any).

(** [MarshalJSONTo] in one step: an error when a string of the fixed
    fields is not valid UTF-8; else the loop over the extensions, run
    after the fixed fields are written, and the closing token. *)
Lemma MarshalJSONTo_run h d enc :
  MarshalJSONTo range_order h d enc
  = if fixed_strings_valid d
    then e ← marshal_extensions (range range_order h (Extensions d))
               (enc ++ WToken jsontext.ObjectStart :: fixed_written d);
         Ok (e ++ [WToken jsontext.ObjectEnd])
    else Err json.ErrInvalidUTF8.
Proof.
  destruct UTF8_valid_names as (N1 & N2 & N3 & N4 & N5).
  destruct d as [typ status title detail instance ext und].
  unfold MarshalJSONTo, fixed_strings_valid, fixed_written, cmp_Or.
  cbn [Type_ Status Title Detail Instance Extensions].
  cbn [json.WriteToken mbind Outcome_bind].
  destruct (String.eqb typ "") eqn:Ety; cbn [negb].
  - apply String.eqb_eq in Ety as ->.
    change (UTF8.valid "") with true. cbn [andb mbind Outcome_bind app].
    rewrite (optional_int_member _ _ status N2). cbn [mbind Outcome_bind].
    rewrite (optional_string_member _ _ title N3).
    destruct (UTF8.valid title); cbn [andb mbind Outcome_bind]; [|reflexivity].
    rewrite (optional_string_member _ _ detail N4).
    destruct (UTF8.valid detail); cbn [andb mbind Outcome_bind]; [|reflexivity].
    rewrite (optional_string_member _ _ instance N5).
    destruct (UTF8.valid instance); cbn [andb mbind Outcome_bind]; [|reflexivity].
    rewrite <- !app_assoc. cbn [app].
    destruct (marshal_extensions _ _); reflexivity.
  - rewrite (write_member_string_or_error _ _ typ N1).
    destruct (UTF8.valid typ); cbn [andb mbind Outcome_bind]; [|reflexivity].
  rewrite (optional_int_member _ _ status N2). cbn [mbind Outcome_bind].
  rewrite (optional_string_member _ _ title N3).
  destruct (UTF8.valid title); cbn [andb mbind Outcome_bind]; [|reflexivity].
  rewrite (optional_string_member _ _ detail N4).
  destruct (UTF8.valid detail); cbn [andb mbind Outcome_bind]; [|reflexivity].
  rewrite (optional_string_member _ _ instance N5).
  destruct (UTF8.valid instance); cbn [andb mbind Outcome_bind]; [|reflexivity].
  rewrite <- !app_assoc. cbn [app].
  destruct (marshal_extensions _ _); reflexivity.
Qed.

End EncodingRun.

(** The loop over the extensions succeeds exactly when every visited
    entry that is not under a reserved name is accepted; it then has
    written one member for each of them, in the order of the visit. *)
Lemma marshal_extensions_Ok_iff kvs : forall enc,
  (exists enc', marshal_extensions kvs enc = Ok enc')
  <-> Forall (fun kv => reserved kv.1 = false -> entry_encodable kv.1 kv.2) kvs.
Proof.
  induction kvs as [|[k v] kvs IH]; intros enc; cbn [marshal_extensions].
  - split; [constructor|eauto].
  - rewrite Forall_cons. cbn [fst snd]. destruct (reserved k) eqn:Hk.
    + rewrite IH. intuition discriminate.
    + unfold json.WriteToken, json.MarshalEncode, entry_encodable.
      destruct (UTF8.valid k); cbn [mbind Outcome_bind].
      2:{ split; [intros [? [=]]|intros [[[=] _] _]]; auto. }
      destruct (json.marshal v) as [jv| |]; cbn [mbind Outcome_bind].
      * rewrite IH. split; [intros H; split; [eauto|exact H]|tauto].
      * split; [intros [? [=]]|intros [H _]].
        destruct (H eq_refl) as [_ [? [=]]].
      * split; [intros [? [=]]|intros [H _]].
        destruct (H eq_refl) as [_ [? [=]]].
Qed.

Lemma marshal_extensions_members kvs : forall enc enc',
  marshal_extensions kvs enc = Ok enc' ->
  exists ms,
    enc' = enc ++ members_written ms
    /\ forall k jv, (k, jv) ∈ ms <->
                    reserved k = false
                    /\ exists v, (k, v) ∈ kvs /\ json.marshal v = Ok jv.
Proof.
  induction kvs as [|[k v] kvs IH]; intros enc enc' H; cbn [marshal_extensions] in H.
  - injection H as <-. exists []. rewrite app_nil_r. split; [reflexivity|].
    intros k jv. split; [intros Hin; inversion Hin|].
    intros (_ & v & Hin & _). inversion Hin.
  - destruct (reserved k) eqn:Hk.
    + destruct (IH _ _ H) as (ms & -> & Hms). exists ms. split; [reflexivity|].
      intros k' jv. rewrite Hms. split.
      * intros (Hk' & v' & Hin & Hm). split; [exact Hk'|].
        exists v'. split; [by right|exact Hm].
      * intros (Hk' & v' & Hin & Hm). split; [exact Hk'|].
        apply elem_of_cons in Hin as [[= -> ->]|Hin]; [congruence|eauto].
    + apply bind_Ok in H as (enc1 & H1 & H).
      apply bind_Ok in H as (enc2 & H2 & H).
      apply WriteToken_Ok in H1 as ->.
      unfold json.MarshalEncode in H2.
      apply bind_Ok in H2 as (jv0 & Hv & [= <-]).
      destruct (IH _ _ H) as (ms & -> & Hms).
      exists ((k, jv0) :: ms). split.
      { cbn [members_written flat_map]. fold (members_written ms).
        rewrite <- !app_assoc. reflexivity. }
      intros k' jv. rewrite elem_of_cons, Hms. split.
      * intros [[= -> ->]|(Hk' & v' & Hin & Hm)].
        -- split; [exact Hk|]. exists v. split; [by left|exact Hv].
        -- split; [exact Hk'|]. exists v'. split; [by right|exact Hm].
      * intros (Hk' & v' & Hin & Hm).
        apply elem_of_cons in Hin as [[= -> ->]|Hin].
        -- left. congruence.
        -- right. eauto.
Qed.

Lemma members_of_fixed_written d rest ms :
  jsontext.members_of rest = Some ms ->
  jsontext.members_of (fixed_written d ++ rest) = Some (fixed_members d ++ ms).
Proof.
  intros Hrest. destruct d as [typ status title detail instance ext und].
  unfold fixed_written, fixed_members, fixed_field.
  cbn [Type_ Status Title Detail Instance omap String.eqb Ascii.eqb Bool.eqb].
  destruct (String.eqb typ ""), (status =? 0), (String.eqb title ""),
    (String.eqb detail ""), (String.eqb instance "");
    cbn; rewrite Hrest; reflexivity.
Qed.

Section EncodingExtras.

Variable range_order : gmap string any -> list (string * any).
Hypothesis range_order_perm : forall m, range_order m ≡ₚ map_to_list m.

(** [range] visits the entries of the map. *)
Lemma elem_of_range h e k v :
  (k, v) ∈ range range_order h e <-> deref h e !! k = Some v.
Proof.
  unfold range. destruct e as [l|].
  - rewrite (range_order_perm (deref h (Some l))). apply elem_of_map_to_list.
  - cbn [deref]. rewrite lookup_empty. split; [intros H; inversion H|discriminate].
Qed.

Lemma MarshalJSONTo_Ok_iff_encodable h d :
  (exists enc, MarshalJSONTo range_order h d [] = Ok enc) <-> encodable h d.
Proof.
  rewrite MarshalJSONTo_run. unfold encodable.
  destruct (fixed_strings_valid d).
  2:{ split; [intros [? [=]]|intros [[=] _]]. }
  assert (forall enc0,
            (exists enc, (e ← marshal_extensions
                               (range range_order h (Extensions d)) enc0;
                          Ok (e ++ [WToken jsontext.ObjectEnd])) = Ok enc)
            <-> exists enc', marshal_extensions
                               (range range_order h (Extensions d)) enc0 = Ok enc')
    as ->.
  { intros enc0. destruct (marshal_extensions _ enc0) as [e| |];
      cbn [mbind Outcome_bind]; split; intros [? H]; eauto; discriminate. }
  rewrite marshal_extensions_Ok_iff, Forall_forall. split.
  - intros H. split; [reflexivity|]. intros k v Hkv Hk.
    apply (H (k, v)); [|exact Hk]. apply elem_of_range. exact Hkv.
  - intros [_ H] [k v] Hin Hk. apply (H k v); [|exact Hk].
    apply elem_of_range. exact Hin.
Qed.

(** X1. Encoding succeeds exactly when the strings of the fixed fields
    are valid UTF-8 and every extension that is not under a reserved name
    has a valid key and a value with a JSON encoding. The order of [range]
    and the extensions under reserved names have no part in it. *)
Theorem MarshalJSONTo_succeeds_iff_encodable h d :
  (exists enc, MarshalJSONTo range_order h d [] = Ok enc) <-> encodable h d.
Proof. apply MarshalJSONTo_Ok_iff_encodable. Qed.

(** What encoding writes, in full. *)
Lemma MarshalJSONTo_written h d enc :
  MarshalJSONTo range_order h d [] = Ok enc ->
  fixed_strings_valid d = true
  /\ exists ext,
      jsontext.written_value enc = Some (VObject (fixed_members d ++ ext))
      /\ NoDup (fixed_members d ++ ext).*1
      /\ forall k jv, (k, jv) ∈ ext <-> extension_member h d k jv.
Proof.
  intros H. pose proof H as Hrun. rewrite MarshalJSONTo_run in Hrun.
  destruct (fixed_strings_valid d); [|discriminate]. split; [reflexivity|].
  apply bind_Ok in Hrun as (e & Hext & [= <-]).
  apply marshal_extensions_members in Hext as (ext & -> & Hms).
  assert (jsontext.written_value
            (([] ++ WToken jsontext.ObjectStart :: fixed_written d)
               ++ members_written ext ++ [WToken jsontext.ObjectEnd])
          = Some (VObject (fixed_members d ++ ext))) as Hw.
  { cbn [app jsontext.written_value].
    rewrite (members_of_fixed_written d _ ext (members_of_written ext)).
    reflexivity. }
  rewrite <- app_assoc. exists ext. split; [exact Hw|]. split.
  - destruct (MarshalJSONTo_names_NoDup range_order range_order_perm h d _ H)
      as (ms & Hw' & Hnd).
    rewrite MarshalJSONTo_run in H.
    assert (ms = fixed_members d ++ ext) as <-; [|exact Hnd].
    rewrite <- app_assoc in Hw'. rewrite Hw in Hw'. congruence.
  - intros k jv. rewrite Hms. unfold extension_member.
    split; intros (Hk & v & Hv & Hm); (split; [exact Hk|]); exists v;
      (split; [|exact Hm]); apply elem_of_range; exact Hv.
Qed.

(** X2. When encoding succeeds, the written object has, after the
    members of the fixed fields, exactly one member for every extension
    that is not under a reserved name, with the JSON encoding of its
    value, and no two members of the object have the same name. *)
Theorem MarshalJSONTo_writes_every_extension h d enc :
  MarshalJSONTo range_order h d [] = Ok enc ->
  exists ext,
    jsontext.written_value enc = Some (VObject (fixed_members d ++ ext))
    /\ NoDup (fixed_members d ++ ext).*1
    /\ forall k jv, (k, jv) ∈ ext <-> extension_member h d k jv.
Proof. intros H. exact (proj2 (MarshalJSONTo_written h d enc H)). Qed.

End EncodingExtras.

(** ** More on decoding *)









(** X5. [Underlying] is neither written nor read: the encoding does not
    depend on it, and decoding, whatever the input, leaves it as it
    was. *)
Theorem Underlying_is_not_on_the_wire range_order h d dec enc :
  (forall err, MarshalJSONTo range_order h (set_Underlying d err) enc
               = MarshalJSONTo range_order h d enc)
  /\ (forall d' h', UnmarshalJSONFrom d dec h = Ok (d', h') ->
                    Underlying d' = Underlying d).
Proof.
  split; [intros err; reflexivity|].
  intros d' h' H. destruct dec as [v|]; [|discriminate].
  destruct (jsontext.value_ok v) eqn:Hok.
  2:{ unfold UnmarshalJSONFrom, json.UnmarshalDecode in H. rewrite Hok in H.
      discriminate. }
  destruct v as [| | | | | |ms];
    try (unfold UnmarshalJSONFrom, json.UnmarshalDecode in H; rewrite Hok in H;
         discriminate).
  - unfold UnmarshalJSONFrom, json.UnmarshalDecode in H. rewrite Hok in H.
    cbn in H. injection H as <- <-. reflexivity.
  - destruct (UnmarshalJSONFrom_object d ms h Hok)
      as (d1 & h1 & Hrun & _ & _ & _ & _ & _ & E6 & _).
    rewrite Hrun in H. injection H as <- <-. exact E6.
Qed.

(** ** Round trips with extensions *)


Section RoundTripExtensions.

Variable range_order : gmap string any -> list (string * any).
Hypothesis range_order_perm : forall m, range_order m ≡ₚ map_to_list m.




End RoundTripExtensions.

(** ** More on options and types *)

(** The fields that the options leave do not depend on the store. *)
Lemma apply_options_fields cs : forall d0 h0,
  let d := (apply_options (map option_of cs) d0 h0).1 in
  Type_ d = Type_ d0 /\ Title d = Title d0
  /\ Status d = default (Status d0) (last_write writes_Status cs)
  /\ Detail d = default (Detail d0) (last_write writes_Detail cs)
  /\ Instance d = default (Instance d0) (last_write writes_Instance cs)
  /\ Underlying d = default (Underlying d0) (last_write writes_Underlying cs).
Proof.
  induction cs as [|c cs IH]; intros d0 h0; [repeat split|].
  unfold apply_options in *. cbn [map fold_left fst snd last_write].
  destruct (option_of c d0 h0) as [d1 h1] eqn:E1. cbn [fst snd].
  specialize (IH d1 h1). cbn zeta in IH |- *.
  destruct IH as (T & Ti & S & D & I & U).
  rewrite T, Ti, S, D, I, U.
  assert (Type_ d1 = Type_ d0 /\ Title d1 = Title d0
          /\ Status d1 = default (Status d0) (writes_Status c)
          /\ Detail d1 = default (Detail d0) (writes_Detail c)
          /\ Instance d1 = default (Instance d0) (writes_Instance c)
          /\ Underlying d1 = default (Underlying d0) (writes_Underlying c))
    as (T1 & Ti1 & S1 & D1 & I1 & U1).
  { destruct c; cbn [option_of] in E1;
      unfold WithStatus, WithDetail, WithInstance, WithExtension,
        WithExtensions, WithUnderlying in E1;
      try destruct (ensure_Extensions d0 h0) as [l h'];
      injection E1 as <- <-; repeat split. }
  rewrite T1, Ti1, S1, D1, I1, U1.
  destruct (last_write writes_Status cs), (last_write writes_Detail cs),
    (last_write writes_Instance cs), (last_write writes_Underlying cs);
    repeat split.
Qed.

(** An instance keeps the map it has. *)
Lemma apply_options_keeps_map cs : forall d0 h0 l,
  Extensions d0 = Some l ->
  Extensions (apply_options (map option_of cs) d0 h0).1 = Some l.
Proof.
  induction cs as [|c cs IH]; intros d0 h0 l Hl; [exact Hl|].
  unfold apply_options in *. cbn [map fold_left fst snd].
  destruct (option_of c d0 h0) as [d1 h1] eqn:E1. cbn [fst snd].
  apply IH.
  destruct c; cbn [option_of] in E1;
    unfold WithStatus, WithDetail, WithInstance, WithExtension,
      WithExtensions, WithUnderlying, ensure_Extensions in E1;
    try rewrite Hl in E1; injection E1 as <- <-;
    first [exact Hl|reflexivity].
Qed.

(** Without a call that stores an extension nothing is allocated; with
    one, the instance has a map. *)
Lemma apply_options_allocates cs : forall d0 h0,
  Extensions d0 = None ->
  let r := apply_options (map option_of cs) d0 h0 in
  if forallb (fun c => negb (writes_extensions c)) cs
  then Extensions r.1 = None /\ r.2 = h0
  else is_Some (Extensions r.1).
Proof.
  induction cs as [|c cs IH]; intros d0 h0 Hnone; [split; [exact Hnone|reflexivity]|].
  unfold apply_options in *. cbn [map fold_left fst snd forallb].
  destruct (option_of c d0 h0) as [d1 h1] eqn:E1. cbn [fst snd].
  destruct (writes_extensions c) eqn:Hc; cbn [negb andb].
  - assert (is_Some (Extensions d1)) as [l Hl].
    { destruct c; try discriminate; cbn [option_of] in E1;
        unfold WithExtension, WithExtensions in E1;
        destruct (ensure_Extensions d0 h0) as [l h'];
        injection E1 as <- <-; eexists; reflexivity. }
    pose proof (apply_options_keeps_map cs d1 h1 l Hl) as Hkeep.
    unfold apply_options in Hkeep. rewrite Hkeep. eauto.
  - assert (Extensions d1 = None /\ h1 = h0) as [Hd1 ->].
    { destruct c; try discriminate; cbn [option_of] in E1;
        unfold WithStatus, WithDetail, WithInstance, WithUnderlying in E1;
        injection E1 as <- <-; (split; [exact Hnone|reflexivity]). }
    apply (IH d1 h0 Hd1).
Qed.

(** X8. [New(typ, title, status, opts...)], for options made by the
    constructors of the package, in a store that holds the maps they
    read: the instance has the given type and title; its status is that
    of the last [WithStatus], else the given one, and likewise detail,
    instance and underlying error, else the zero values; under every
    extension key it has the value of the last option that stores one
    there, else nothing. The maps of the store are as they were, the map
    of the instance is a new one, and there is one exactly when some
    option is a [WithExtension] or a [WithExtensions], whatever it
    stores. *)
Theorem New_last_writer_wins typ title status cs h :
  reads_allocated h cs ->
  exists d h',
    New typ title status (map option_of cs) h = (d, h')
    /\ Type_ d = typ /\ Title d = title
    /\ Status d = default status (last_write writes_Status cs)
    /\ Detail d = default "" (last_write writes_Detail cs)
    /\ Instance d = default "" (last_write writes_Instance cs)
    /\ Underlying d = default None (last_write writes_Underlying cs)
    /\ (forall k, deref h' (Extensions d) !! k
                  = last_write (writes_key h k) cs)
    /\ (forall l, l ∈ dom h -> h' !! l = h !! l)
    /\ (forall l, Extensions d = Some l -> l ∉ dom h)
    /\ (Extensions d = None
        <-> forallb (fun c => negb (writes_extensions c)) cs = true).
Proof.
  intros Hreads. unfold New.
  set (d0 := mkDetails typ status title "" "" None None).
  assert (extends h d0 h) as Hext.
  { split; [reflexivity|]. intros l [=]. }
  destruct (apply_options_spec h cs d0 h Hext Hreads) as
    (d & h' & Hrun & [Hsame Hmine] & T & Ti & S & D & I & U & K).
  exists d, h'. split; [exact Hrun|].
  split; [exact T|]. split; [exact Ti|]. split; [exact S|].
  split; [exact D|]. split; [exact I|]. split; [exact U|].
  split.
  { intros k. rewrite K. cbn [d0 Extensions deref]. rewrite lookup_empty.
    destruct (last_write (writes_key h k) cs); reflexivity. }
  split; [exact Hsame|]. split; [intros l Hl; apply (Hmine l Hl)|].
  pose proof (apply_options_allocates cs d0 h eq_refl) as Halloc.
  cbn zeta in Halloc. rewrite Hrun in Halloc. cbn [fst snd] in Halloc.
  destruct (forallb (fun c => negb (writes_extensions c)) cs).
  - destruct Halloc as [-> _]. split; reflexivity.
  - destruct Halloc as [l ->]. split; discriminate.
Qed.

(** X9. [t.Details(opts...)] is [New] with the fields of [t] and, when
    [t] has extensions, [WithExtensions(t.Extensions)] put before the
    options, as the comment in the code describes it: the same instance
    and the same store, for any options. When [t] has no extension, the
    options are passed as they are, and no map is made for [t]'s sake. *)
Theorem Type_Details_as_New t opts h :
  Type_Details t opts h
  = New (URI t) (TypeTitle t) (TypeStatus t)
      (if 0 <? Z.of_nat (size (deref h (TypeExtensions t)))
       then WithExtensions (TypeExtensions t) :: opts
       else opts) h.
Proof.
  unfold Type_Details, New, apply_options. cbn [fold_left fst snd].
  destruct (0 <? Z.of_nat (size (deref h (TypeExtensions t)))) eqn:E;
    [|reflexivity].
  cbn [fold_left fst snd]. f_equal.
  unfold WithExtensions, ensure_Extensions, alloc, maps_Copy.
  cbn [Extensions set_Extensions Type_ Status Title Detail Instance Underlying].
  f_equal.
  pose proof (is_fresh (dom h)) as Hfresh. set (l := fresh (dom h)) in *.
  rewrite deref_insert_eq, insert_insert_eq.
  assert (deref (<[l := ∅]> h) (TypeExtensions t) = deref h (TypeExtensions t))
    as ->.
  { unfold deref. destruct (TypeExtensions t) as [lt|]; [|reflexivity].
    destruct (decide (lt = l)) as [->|Hne].
    - exfalso. apply Z.ltb_lt in E. unfold deref in E.
      apply not_elem_of_dom in Hfresh. rewrite Hfresh in E.
      cbn in E. rewrite map_size_empty in E. lia.
    - rewrite lookup_insert_ne by congruence. reflexivity. }
  rewrite (right_id_L ∅ (∪)). reflexivity.
Qed.

Lemma Type_Details_fields t cs h :
  let d := (Type_Details t (map option_of cs) h).1 in
  Type_ d = URI t /\ Title d = TypeTitle t
  /\ Status d = final_Status (TypeStatus t) cs.
Proof.
  unfold Type_Details, New, final_Status.
  set (d0 := mkDetails (URI t) (TypeStatus t) (TypeTitle t) "" "" None None
             : Details).
  change (apply_options [] d0 h) with (d0, h). cbn iota.
  destruct (0 <? Z.of_nat (size (deref h (TypeExtensions t)))).
  - destruct (alloc (deref h (TypeExtensions t)) h) as [l h1].
    destruct (apply_options_fields cs (set_Extensions d0 (Some l)) h1)
      as (T & Ti & S & _).
    repeat split; assumption.
  - destruct (apply_options_fields cs d0 h) as (T & Ti & S & _).
    repeat split; assumption.
Qed.

(** X10. An instance matches the type it was made from, unless its
    status was overridden: for options made by the constructors of the
    package, [Is(t.Details(opts...), t)] holds exactly when the status of
    [t] is zero or the options leave the status of [t]. *)
Theorem Is_Type_Details t cs h :
  Is (Some (DetailsError (Type_Details t (map option_of cs) h).1)) t = true
  <-> TypeStatus t = 0 \/ final_Status (TypeStatus t) cs = TypeStatus t.
Proof.
  destruct (Type_Details_fields t cs h) as (T & Ti & S).
  unfold Is. cbn [errors_As errors_as]. rewrite T, Ti, S.
  assert (negb (String.eqb (URI t) "")
          && negb (String.eqb (URI t) (cmp_Or (URI t) AboutBlankTypeURI)) = false)
    as ->.
  { unfold cmp_Or. destruct (String.eqb (URI t) "") eqn:E; [reflexivity|].
    rewrite String.eqb_refl. reflexivity. }
  assert (negb (String.eqb (TypeTitle t) "")
          && negb (String.eqb (TypeTitle t) (TypeTitle t)) = false) as ->.
  { rewrite String.eqb_refl. apply andb_false_r. }
  destruct (Z.eqb_spec (TypeStatus t) 0) as [Z0|Z0];
    destruct (Z.eqb_spec (TypeStatus t) (final_Status (TypeStatus t) cs))
      as [F|F]; cbn [negb andb]; intuition congruence.
Qed.

(** X11. Two options that write different things can be given in
    either order: for two calls that set different fields, or store
    extensions under different keys, or one of each, the instance and the
    store are the same after both. *)
Theorem independent_options_commute c1 c2 d h :
  independent c1 c2 ->
  apply_options [option_of c1; option_of c2] d h
  = apply_options [option_of c2; option_of c1] d h.
Proof.
  unfold apply_options. cbn [fold_left fst snd].
  destruct c1 as [s1|s1|s1|k1 v1|e1|u1], c2 as [s2|s2|s2|k2 v2|e2|u2];
    cbn [independent option_of]; intros Hind; try contradiction;
    try reflexivity.
  all: unfold WithStatus, WithDetail, WithInstance, WithUnderlying,
         WithExtension, ensure_Extensions, alloc;
       cbn [fst snd Extensions set_Status set_Detail set_Instance
            set_Underlying set_Extensions];
       try (destruct (Extensions d) as [l|]; reflexivity).
  destruct (Extensions d) as [l|];
    cbn [fst snd Extensions set_Extensions Type_ Status Title
         Detail Instance Underlying];
    rewrite ?deref_insert_eq, ?insert_insert_eq; f_equal; f_equal;
    apply insert_insert_ne; congruence.
Qed.

(** ** More on serving *)

Section ServingExtras.

Variable range_order : gmap string any -> list (string * any).
Hypothesis range_order_perm : forall m, range_order m ≡ₚ map_to_list m.




End ServingExtras.

(** ** The further properties at concrete inputs *)

Lemma listed_order_perm (m : gmap string any) : listed_order m ≡ₚ map_to_list m.
Proof. reflexivity. Qed.

Lemma MarshalJSONTo_succeeds_iff_encodable_witness :
  encodable shadowing_store shadowed.
Proof.
  apply (MarshalJSONTo_succeeds_iff_encodable listed_order listed_order_perm
           shadowing_store shadowed).
  exists shadowed_JSON. vm_compute. reflexivity.
Defined.

Lemma MarshalJSONTo_writes_every_extension_witness :
  exists ext,
    jsontext.written_value shadowed_JSON
    = Some (VObject (fixed_members shadowed ++ ext))
    /\ NoDup (fixed_members shadowed ++ ext).*1
    /\ forall k jv, (k, jv) ∈ ext
                    <-> extension_member shadowing_store shadowed k jv.
Proof.
  apply (MarshalJSONTo_writes_every_extension listed_order listed_order_perm
           shadowing_store shadowed shadowed_JSON).
  vm_compute. reflexivity.
Defined.





Lemma New_last_writer_wins_witness :
  exists d h',
    New "about:blank" "Out of credit" 403 (map option_of credit_calls) ∅
    = (d, h')
    /\ Status d = 418 /\ Detail d = ""
    /\ deref h' (Extensions d) !! "balance" = Some (int_ 30).
Proof.
  destruct (New_last_writer_wins "about:blank" "Out of credit" 403
              credit_calls ∅)
    as (d & h' & Hrun & _ & _ & S & D & _ & _ & K & _).
  - intros l Hl. vm_compute in Hl.
    repeat (apply elem_of_cons in Hl as [[=]|Hl]). inversion Hl.
  - exists d, h'. split; [exact Hrun|split; [exact S|split; [exact D|]]].
    rewrite (K "balance"). reflexivity.
Defined.

Lemma independent_options_commute_witness :
  apply_options
    [WithExtension "balance" (int_ 30); WithExtension "currency" (string_ "USD")]
    teapot ∅
  = apply_options
      [WithExtension "currency" (string_ "USD"); WithExtension "balance" (int_ 30)]
      teapot ∅.
Proof.
  apply (independent_options_commute (CallWithExtension "balance" (int_ 30))
           (CallWithExtension "currency" (string_ "USD")) teapot ∅).
  simpl. discriminate.
Defined.


